(** * split_pitches.py: splitting a trajectory table into one table per pitch

    A shallow embedding of [Final-Project/scripts/split_pitches.py].

    The script reads a CSV table, keeps its header, and starts a new output
    table whenever field 0 of a row is exactly [0.0].  The embedding keeps the
    shape of the script:

    - a table is what [csv.reader] yields: a list of rows, a row being a list
      of string fields (a blank line is the row with no field);
    - [float(row[0].strip())] is modelled by [py_float] on ASCII strings, the
      result being the exact decimal value read, which is only ever compared
      with [0.0];
    - [write_pitch] and the [print] calls are I/O operations; a run of
      [split_file] yields the sequence of operations it issues, in order, and
      [exec] replays that sequence on a file system ([Path.open("w")]
      truncates, so a later write to the same path replaces the earlier one);
    - [main] guards [split_file] by the existence test of the input path.

    Operating-system failures (a directory that cannot be created, a file that
    cannot be opened for writing) are outside the model: every [mkdir] and
    every write succeeds. *)

From Stdlib Require Import ZArith Lia Ascii DecimalString DecimalNat.
From stdpp Require Import gmap strings list.

Local Open Scope string_scope.
Local Open Scope list_scope.
Local Open Scope nat_scope.

(** ** Python strings: [str.strip] and [float] *)

Module PyStr.

Definition chars (s : string) : list ascii := String.list_ascii_of_string s.

(** [str.isspace] on the ASCII range: TAB, LF, VT, FF, CR, the four
    separators FS, GS, RS, US, and the blank. *)
Definition isspace (c : ascii) : bool :=
  let n := nat_of_ascii c in
  ((9 <=? n) && (n <=? 13)) || ((28 <=? n) && (n <=? 32)).

Fixpoint lstrip (cs : list ascii) : list ascii :=
  match cs with
  | c :: cs' => if isspace c then lstrip cs' else cs
  | [] => []
  end.

Definition rstrip (cs : list ascii) : list ascii := rev (lstrip (rev cs)).

(** [s.strip()] *)
Definition strip (s : string) : string :=
  String.string_of_list_ascii (rstrip (lstrip (chars s))).

Definition digit_val (c : ascii) : option nat :=
  let n := nat_of_ascii c in
  if (48 <=? n) && (n <=? 57) then Some (n - 48) else None.

Definition isdigit (c : ascii) : bool :=
  match digit_val c with Some _ => true | None => false end.

Definition lower (c : ascii) : ascii :=
  let n := nat_of_ascii c in
  if (65 <=? n) && (n <=? 90) then ascii_of_nat (n + 32) else c.

Definition underscore : ascii := "_"%char.

(** The digits of a [digitpart] from its second character on: a digit, or
    one underscore that a digit follows. *)
Fixpoint digit_run (cs : list ascii) : list nat * list ascii :=
  match cs with
  | [] => ([], [])
  | c :: cs' =>
      match digit_val c with
      | Some d => let '(ds, r) := digit_run cs' in (d :: ds, r)
      | None =>
          if Ascii.eqb c underscore then
            match cs' with
            | c2 :: _ => if isdigit c2 then digit_run cs' else ([], cs)
            | [] => ([], cs)
            end
          else ([], cs)
      end
  end.

(** [digitpart ::= digit (["_"] digit)*] *)
Definition digitpart (cs : list ascii) : option (list nat * list ascii) :=
  match cs with
  | c :: _ => if isdigit c then Some (digit_run cs) else None
  | [] => None
  end.

(** [number ::= [digitpart] "." digitpart | digitpart ["."]]: the digits
    before the point, the digits after it, and the rest of the input. *)
Definition number (cs : list ascii)
  : option (list nat * list nat * list ascii) :=
  match digitpart cs with
  | Some (ip, r) =>
      match r with
      | "."%char :: r' =>
          match digitpart r' with
          | Some (fp, r'') => Some (ip, fp, r'')
          | None => Some (ip, [], r')
          end
      | _ => Some (ip, [], r)
      end
  | None =>
      match cs with
      | "."%char :: r' =>
          match digitpart r' with
          | Some (fp, r'') => Some ([], fp, r'')
          | None => None
          end
      | _ => None
      end
  end.

Definition digits_value (ds : list nat) : Z :=
  fold_left (fun acc d => (10 * acc + Z.of_nat d)%Z) ds 0%Z.

Definition sign (cs : list ascii) : bool * list ascii :=
  match cs with
  | "+"%char :: r => (false, r)
  | "-"%char :: r => (true, r)
  | _ => (false, cs)
  end.

(** [exponent ::= ("e" | "E") [sign] digitpart], up to the end of the
    string; no exponent is the exponent 0. *)
Definition exponent (cs : list ascii) : option Z :=
  match cs with
  | [] => Some 0%Z
  | e :: r =>
      if Ascii.eqb (lower e) "e"%char then
        let '(neg, r1) := sign r in
        match digitpart r1 with
        | Some (ds, []) =>
            Some (if neg then (- digits_value ds)%Z else digits_value ds)
        | _ => None
        end
      else None
  end.

(** What [float] read: a not-a-number, an infinity, or the decimal
    [(-1)^neg * mant * 10^exp10] before it is rounded to a double. *)
Inductive pyfloat : Type :=
| FNan
| FInf (neg : bool)
| FDec (neg : bool) (mant : Z) (exp10 : Z).

(** [float(s)]; [None] stands for the [ValueError]. *)
Definition py_float (s : string) : option pyfloat :=
  let '(neg, body) := sign (rstrip (lstrip (chars s))) in
  let word := String.string_of_list_ascii (map lower body) in
  if String.eqb word "inf" || String.eqb word "infinity" then Some (FInf neg)
  else if String.eqb word "nan" then Some FNan
  else
    match number body with
    | Some (ip, fp, r) =>
        match exponent r with
        | Some e =>
            Some (FDec neg (digits_value (ip ++ fp))
                    (e - Z.of_nat (length fp))%Z)
        | None => None
        end
    | None => None
    end.

(** [x == 0.0] on the double nearest to the decimal read: the decimal is
    zero, or it is so small that it rounds to zero, that is at most
    [2^-1075], half the least positive double (a tie rounds to even). *)
Definition is_zero (x : pyfloat) : bool :=
  match x with
  | FDec _ m e =>
      (m =? 0)%Z || ((e <? 0)%Z && (m * 2 ^ 1075 <=? 10 ^ (- e))%Z)
  | _ => false
  end.

End PyStr.

(** ** Paths, tables and the file system *)

(** A [pathlib.Path] by its parts; an absolute path starts with the part
    ["/"]. *)
Definition Path : Type := list string.

Definition Row : Type := list string.

(** What [csv.reader] yields and [csv.writer] is given: the rows in order. *)
Definition Table : Type := list Row.

Module PyPath.

Fixpoint split_slash (s : string) : list string :=
  match s with
  | EmptyString => [""]
  | String c s' =>
      if Ascii.eqb c "/"%char then "" :: split_slash s'
      else
        match split_slash s' with
        | h :: t => String c h :: t
        | [] => [String c ""]
        end
  end.

Definition kept_part (part : string) : bool :=
  negb (String.eqb part "") && negb (String.eqb part ".").

(** [Path(s)]: empty parts and ["."] parts are dropped. *)
Definition of_string (s : string) : Path :=
  (match s with
   | String c _ => if Ascii.eqb c "/"%char then ["/"] else []
   | EmptyString => []
   end) ++ List.filter kept_part (split_slash s).

(** [str(p)] *)
Definition to_string (p : Path) : string :=
  match p with
  | [] => "."
  | root :: rest =>
      if String.eqb root "/" then "/" +:+ String.concat "/" rest
      else String.concat "/" p
  end.

(** [p.name]: the last part, or the empty string when there is none. *)
Definition name (p : Path) : string :=
  match p with
  | ["/"] => ""
  | _ => List.last p ""
  end.

(** [s.rfind(".")] *)
Fixpoint rfind_dot (s : string) : option nat :=
  match s with
  | EmptyString => None
  | String c s' =>
      match rfind_dot s' with
      | Some i => Some (S i)
      | None => if Ascii.eqb c "."%char then Some 0 else None
      end
  end.

(** [p.stem]: the name up to its last dot, when that dot is neither the
    first nor the last character of the name. *)
Definition stem (p : Path) : string :=
  let nm := name p in
  match rfind_dot nm with
  | Some i =>
      if (0 <? i) && (i <? String.length nm - 1) then String.substring 0 i nm
      else nm
  | None => nm
  end.

(** [p / child] *)
Definition join (p : Path) (child : string) : Path := p ++ [child].

(** The path itself and the directories above it, from the top. *)
Fixpoint parents_and_self (p : Path) : list Path :=
  match p with
  | [] => []
  | part :: rest => [part] :: map (cons part) (parents_and_self rest)
  end.

End PyPath.

(** The file system and the standard output of a run. *)
Record World : Type := mkWorld {
  dirs : gset Path;
  files : gmap Path Table;
  stdout : list string
}.

(** The I/O operations the script issues. *)
Inductive io_op : Type :=
| Mkdir (d : Path)                (* d.mkdir(parents=True, exist_ok=True) *)
| WriteCsv (p : Path) (t : Table) (* p.open("w"), then the rows of t *)
| Print (line : string).

Definition exec_op (w : World) (op : io_op) : World :=
  match op with
  | Mkdir d =>
      mkWorld (dirs w ∪ list_to_set (PyPath.parents_and_self d))
        (files w) (stdout w)
  | WriteCsv p t => mkWorld (dirs w) (<[p := t]> (files w)) (stdout w)
  | Print line => mkWorld (dirs w) (files w) (stdout w ++ [line])
  end.

Definition exec (w : World) (ops : list io_op) : World :=
  fold_left exec_op ops w.

(** The writes among the operations, in the order they are issued. *)
Fixpoint writes (ops : list io_op) : list (Path * Table) :=
  match ops with
  | [] => []
  | WriteCsv p t :: rest => (p, t) :: writes rest
  | _ :: rest => writes rest
  end.

(** ** The script *)

(** [str(n)] for a natural number. *)
Definition dec (n : nat) : string := NilZero.string_of_uint (Nat.to_uint n).

(** [f"{idx:03d}"]: zeros on the left up to three characters. *)
Definition fmt03 (idx : nat) : string :=
  let s := dec idx in
  String.concat "" (replicate (3 - String.length s) "0") +:+ s.

(** [write_pitch]: the path written and the operations issued. *)
Definition write_pitch (outdir : Path) (base : string) (idx : nat)
    (header : Row) (rows : list Row) : Path * list io_op :=
  let filename := base +:+ "_pitch_" +:+ fmt03 idx +:+ ".csv" in
  let outpath := PyPath.join outdir filename in
  (outpath, [Mkdir outdir; WriteCsv outpath (header :: rows)]).

(** [print(f"Wrote {path} ({len(current_rows)} rows)")] *)
Definition wrote (path : Path) (rows : list Row) : io_op :=
  Print ("Wrote " +:+ PyPath.to_string path +:+ " (" +:+ dec (length rows)
         +:+ " rows)").

(** The locals of [split_file] that the loop updates. *)
Record locals : Type := mkLocals {
  pitch_idx : nat;
  current_rows : list Row
}.

(** Lines 50-55: [t] is the float read from the stripped field 0, or [None]
    when [float] raises. *)
Definition time_of (row0 : string) : option PyStr.pyfloat :=
  PyStr.py_float (PyStr.strip row0).

(** [t == 0.0]; [None == 0.0] is false. *)
Definition eq_zero (t : option PyStr.pyfloat) : bool :=
  match t with
  | Some x => PyStr.is_zero x
  | None => false
  end.

(** Truth value of a list. *)
Definition truthy {A} (l : list A) : bool :=
  match l with [] => false | _ :: _ => true end.

(** One turn of the loop of lines 46-71. *)
Definition loop_body (outdir : Path) (base : string) (header : Row)
    (st : locals) (row : Row) : locals * list io_op :=
  match row with
  | [] => (st, [])
  | row0 :: _ =>
      let t := time_of row0 in
      if eq_zero t then
        let '(st1, ops) :=
          if truthy (current_rows st) then
            let idx := pitch_idx st + 1 in
            let '(path, w) :=
              write_pitch outdir base idx header (current_rows st) in
            (mkLocals idx [], w ++ [wrote path (current_rows st)])
          else (st, []) in
        (mkLocals (pitch_idx st1) (current_rows st1 ++ [row]), ops)
      else
        let idx :=
          if negb (truthy (current_rows st)) then pitch_idx st + 1
          else pitch_idx st in
        (mkLocals idx (current_rows st ++ [row]), [])
  end.

(** [for row in reader: ...] *)
Fixpoint for_rows (outdir : Path) (base : string) (header : Row)
    (st : locals) (rows : list Row) : locals * list io_op :=
  match rows with
  | [] => (st, [])
  | row :: rest =>
      let '(st1, ops1) := loop_body outdir base header st row in
      let '(st2, ops2) := for_rows outdir base header st1 rest in
      (st2, ops1 ++ ops2)
  end.

(** Lines 73-76: the buffer left when the input ends. *)
Definition final_write (outdir : Path) (base : string) (header : Row)
    (st : locals) : list io_op :=
  if truthy (current_rows st) then
    let idx := if 0 <? pitch_idx st then pitch_idx st else 1 in
    let '(path, w) := write_pitch outdir base idx header (current_rows st) in
    w ++ [wrote path (current_rows st)]
  else [].

(** The locals when the loop is left, for an input with a header. *)
Definition scan (outdir : Path) (base : string) (header : Row)
    (rows : list Row) : locals * list io_op :=
  for_rows outdir base header (mkLocals 0 []) rows.

(** [split_file] once the input is open: [reader] is the table read. *)
Definition split_rows (outdir : Path) (base : string) (reader : Table)
    : list io_op :=
  match reader with
  | [] => [Print "Input file is empty"]
  | header :: rows =>
      let '(st, ops) := scan outdir base header rows in
      ops ++ final_write outdir base header st
  end.

(** How a call ends. *)
Inductive outcome : Type :=
| Returned
| SystemExit (message : string)
| Raised (exception : string).

(** The exit status of the interpreter. *)
Definition exit_status (o : outcome) : nat :=
  match o with
  | Returned => 0
  | SystemExit _ => 1
  | Raised _ => 1
  end.

(** [split_file(input_path, outdir)].  The table is read when the file is
    opened; no write of the run can change it, since the name of a pitch
    file continues the stem of the input with ["_pitch_"], where the name of
    the input ends or goes on with a dot. *)
Definition split_file (w : World) (input_path outdir : Path)
    : outcome * World :=
  let base := PyPath.stem input_path in
  match files w !! input_path with
  | None => (Raised "OSError", w)
  | Some reader => (Returned, exec w (split_rows outdir base reader))
  end.

(** [input_path.exists()] *)
Definition path_exists (w : World) (p : Path) : bool :=
  match p with
  | [] => true
  | _ => bool_decide (p ∈ dom (files w)) || bool_decide (p ∈ dirs w)
  end.

(** The parsed command line. *)
Record args : Type := mkArgs {
  input : string;
  outdir : string
}.

Definition default_outdir : string := "Data/split".

(** [main], from line 85 on. *)
Definition main (w : World) (a : args) : outcome * World :=
  let input_path := PyPath.of_string (input a) in
  let outdir := PyPath.of_string (outdir a) in
  if negb (path_exists w input_path) then
    (SystemExit ("Input file not found: " +:+ PyPath.to_string input_path), w)
  else split_file w input_path outdir.

(** ** Notions used by the statements *)

(** A boundary row: field 0 reads as exactly [0.0].  The row without fields
    has no field 0 and is no boundary. *)
Definition is_boundary (row : Row) : bool :=
  match row with
  | [] => false
  | row0 :: _ => eq_zero (time_of row0)
  end.

(** The rows the loop does not skip. *)
Definition data_rows (rows : list Row) : list Row := List.filter truthy rows.

Definition boundaries (rows : list Row) : nat :=
  length (List.filter is_boundary rows).

(** The rows below the header of each table written, in writing order. *)
Definition written_rows (ops : list io_op) : list Row :=
  flat_map (fun pt => tail (snd pt)) (writes ops).

(** The table a path holds after the writes [ws], if one of them is to it. *)
Fixpoint last_write (p : Path) (ws : list (Path * Table)) : option Table :=
  match ws with
  | [] => None
  | (q, t) :: rest =>
      match last_write p rest with
      | Some t' => Some t'
      | None => if decide (q = p) then Some t else None
      end
  end.

(** The first row below the header is a boundary row. *)
Definition starts_at_boundary (t : Table) : bool :=
  match t with
  | _ :: r :: _ => is_boundary r
  | _ => false
  end.

(** The path of pitch file [idx]. *)
Definition pitch_file (outdir : Path) (base : string) (idx : nat) : Path :=
  fst (write_pitch outdir base idx [] []).

(** The tables of the pitch files 1 to [n] that exist, in pitch order. *)
Definition output_files (w : World) (outdir : Path) (base : string) (n : nat)
    : list Table :=
  omap (fun idx => files w !! pitch_file outdir base idx) (seq 1 n).

(** The end-of-input write runs with the counter still 0 and substitutes 1. *)
Definition fallback_taken (outdir : Path) (base : string) (header : Row)
    (rows : list Row) : bool :=
  let st := fst (scan outdir base header rows) in
  truthy (current_rows st) && negb (0 <? pitch_idx st).

Definition empty_world : World := mkWorld ∅ ∅ [].

(** The operations of one flush of the buffer [buf] under index [idx]. *)
Definition flush_ops (outdir : Path) (base : string) (header : Row)
    (idx : nat) (buf : list Row) : list io_op :=
  [Mkdir outdir; WriteCsv (pitch_file outdir base idx) (header :: buf);
   wrote (pitch_file outdir base idx) buf].

(** The four ways through a turn of the loop: the row is skipped; a
    boundary row flushes the buffer and opens the next group; a boundary
    row opens the first group; any other row is added to the buffer. *)
Variant turn (outdir : Path) (base : string) (header : Row) (st : locals)
    (row : Row) : locals * list io_op -> Prop :=
| turn_skip : row = [] -> turn outdir base header st row (st, [])
| turn_flush :
    is_boundary row = true -> current_rows st <> [] ->
    turn outdir base header st row
      (mkLocals (pitch_idx st + 1) [row],
       flush_ops outdir base header (pitch_idx st + 1) (current_rows st))
| turn_open :
    is_boundary row = true -> current_rows st = [] ->
    turn outdir base header st row (mkLocals (pitch_idx st) [row], [])
| turn_keep :
    row <> [] -> is_boundary row = false ->
    turn outdir base header st row
      (mkLocals (if negb (truthy (current_rows st)) then pitch_idx st + 1
                 else pitch_idx st)
         (current_rows st ++ [row]), []).

(** The first row of a buffer is a boundary row. *)
Definition opens_at_boundary (buf : list Row) : bool :=
  match buf with
  | r :: _ => is_boundary r
  | [] => false
  end.

Definition from_boundary (pt : Path * Table) : Prop :=
  starts_at_boundary (snd pt) = true.

(** A table written: the header, then at least one row. *)
Definition well_formed (header : Row) (pt : Path * Table) : Prop :=
  exists r g, snd pt = header :: r :: g.

(** The [i]-th group written, counting from 1, with the path it goes to. *)
Definition group (ops : list io_op) (i : nat) : option (Path * Table) :=
  match i with
  | 0 => None
  | S k => writes ops !! k
  end.

(** ** Two sentences of the specification, as they are stated *)

(** The partition property on the files of a fresh output directory: the
    rows below the header of the pitch files, taken in pitch order, are the
    rows below the header of the input; [n] bounds the indices written. *)
Definition partition_claim (outdir : Path) (base : string) (reader : Table)
    : Prop :=
  let ops := split_rows outdir base reader in
  forall n : nat,
    Forall (fun pt => exists idx, 1 <= idx <= n
                                  /\ fst pt = pitch_file outdir base idx)
      (writes ops) ->
    concat (map (@tail Row) (output_files (exec empty_world ops) outdir base n))
    = tail reader.

(** The substitution of index 1 at the end of the input never runs. *)
Definition fallback_unreachable (outdir : Path) (base : string)
    (reader : Table) : Prop :=
  match reader with
  | header :: rows => fallback_taken outdir base header rows = false
  | [] => True
  end.

(** ** The inputs of the scenarios *)

Definition pitch_header : Row := ["time_diff"; "x"; "y"; "z"].

Definition sample (time_diff : string) : Row := [time_diff; "1.5"; "2.5"; "3.5"].

(** A file system that holds the table [reader] at [Data/pitches.csv]. *)
Definition world_with (reader : Table) : World :=
  mkWorld {[ ["Data"] ]} {[ ["Data"; "pitches.csv"] := reader ]} [].

Definition pitches_args : args := mkArgs "Data/pitches.csv" default_outdir.

Definition split_dir : Path := ["Data"; "split"].

(** Two pitches, each opened by a boundary row. *)
Definition two_pitches : Table :=
  [pitch_header; sample "0.0"; sample "0.1"; sample "0.0"; sample "0.2"].

(** One pitch opened by a boundary row. *)
Definition one_pitch : Table := [pitch_header; sample "0.0"; sample "0.1"].

(** A row before the first boundary row. *)
Definition leading_rows : Table := [pitch_header; sample "0.5"; sample "0.0"].

(** A leading row and two boundary rows. *)
Definition leading_then_two : Table :=
  [pitch_header; sample "0.5"; sample "0.0"; sample "0.0"].

(** A blank line at the end of the input. *)
Definition blank_line : Table := [pitch_header; sample "0.0"; []].

(** A field 0 that is no number, in the middle of a pitch. *)
Definition text_row : Table :=
  [pitch_header; sample "0.0"; sample "NaNtext"; sample "0.1"].

(** ** Notions used by the further properties *)

(** [k] zeros, the padding of [fmt03]. *)
Definition zeros (k : nat) : string := String.concat "" (replicate k "0").

(** The number that a string of decimal digits denotes, as [int(s)] reads
    it; [None] when a character is no digit. *)
Definition index_of_digits (s : string) : option nat :=
  option_map Nat.of_uint (NilEmpty.uint_of_string s).

(** The line printed after a write: the path and the number of rows below
    the header. *)
Definition confirmation (pt : Path * Table) : string :=
  "Wrote " +:+ PyPath.to_string (fst pt) +:+ " (" +:+ dec (length (snd pt) - 1)
  +:+ " rows)".

(** What the script does around one write: the directory, the file, the
    line. *)
Definition write_block (outdir : Path) (pt : Path * Table) : list io_op :=
  [Mkdir outdir; WriteCsv (fst pt) (snd pt); Print (confirmation pt)].


(** The lines printed, in order. *)
Fixpoint prints (ops : list io_op) : list string :=
  match ops with
  | [] => []
  | Print line :: rest => line :: prints rest
  | _ :: rest => prints rest
  end.

(** No boundary row below the second row of a table. *)
Definition closed_group (pt : Path * Table) : Prop :=
  boundaries (tail (tail (snd pt))) = 0.

(** All the characters of a string are whitespace. *)
Definition blank (s : string) : bool :=
  forallb PyStr.isspace (PyStr.chars s).

(** A write with the first row of its table replaced. *)
Definition with_header (header : Row) (pt : Path * Table) : Path * Table :=
  (fst pt, header :: tail (snd pt)).

(** ** The parser and the paths on examples *)

Example py_float_zero : PyStr.py_float "0.0" = Some (PyStr.FDec false 0 (-1)).
Proof. reflexivity. Qed.

Example py_float_blank_zero :
  option_map PyStr.is_zero (PyStr.py_float (PyStr.strip "  -0.000e+5 ")) = Some true.
Proof. vm_compute. reflexivity. Qed.

Example py_float_tenth :
  option_map PyStr.is_zero (PyStr.py_float "0.1") = Some false.
Proof. vm_compute. reflexivity. Qed.

Example py_float_underflow :
  option_map PyStr.is_zero (PyStr.py_float "1e-400") = Some true.
Proof. vm_compute. reflexivity. Qed.

Example py_float_least_double :
  option_map PyStr.is_zero (PyStr.py_float "4.9e-324") = Some false.
Proof. vm_compute. reflexivity. Qed.

Example py_float_text : PyStr.py_float "NaNtext" = None.
Proof. reflexivity. Qed.

Example py_float_nan : PyStr.py_float "NaN" = Some PyStr.FNan.
Proof. reflexivity. Qed.

Example py_float_empty : PyStr.py_float "" = None.
Proof. reflexivity. Qed.

Example py_float_underscores :
  PyStr.py_float "1_0.5" = Some (PyStr.FDec false 105 (-1))
  /\ PyStr.py_float "1__0" = None /\ PyStr.py_float "_1" = None
  /\ PyStr.py_float "1_" = None /\ PyStr.py_float "." = None
  /\ PyStr.py_float "5." = Some (PyStr.FDec false 5 0)
  /\ PyStr.py_float ".5e1" = Some (PyStr.FDec false 5 0)
  /\ PyStr.py_float "1e" = None /\ PyStr.py_float "0x0" = None.
Proof. vm_compute. repeat split. Qed.

Example stem_csv :
  PyPath.stem (PyPath.of_string "Data/SlidersTrajectoriesAustin.csv")
  = "SlidersTrajectoriesAustin".
Proof. reflexivity. Qed.

Example stem_hidden : PyPath.stem (PyPath.of_string "/tmp/.profile") = ".profile".
Proof. reflexivity. Qed.

Example path_round :
  PyPath.to_string (PyPath.of_string "/tmp//a/./b.tar.gz") = "/tmp/a/b.tar.gz"
  /\ PyPath.stem (PyPath.of_string "/tmp//a/./b.tar.gz") = "b.tar".
Proof. split; reflexivity. Qed.

(** ** The operations and the file system *)

Lemma writes_app (a b : list io_op) : writes (a ++ b) = writes a ++ writes b.
Proof.
  induction a as [|op a IH]; [reflexivity|].
  destruct op; simpl; rewrite IH; reflexivity.
Qed.

Lemma written_rows_app (a b : list io_op) :
  written_rows (a ++ b) = written_rows a ++ written_rows b.
Proof. unfold written_rows. rewrite writes_app. apply flat_map_app. Qed.

Lemma exec_files_lookup (ops : list io_op) (w : World) (p : Path) :
  files (exec w ops) !! p =
  match last_write p (writes ops) with
  | Some t => Some t
  | None => files w !! p
  end.
Proof.
  revert w. induction ops as [|op ops IH]; intros w; [reflexivity|].
  change (exec w (op :: ops)) with (exec (exec_op w op) ops).
  rewrite IH. destruct op as [d|q t|line]; simpl; try reflexivity.
  destruct (last_write p (writes ops)); [reflexivity|].
  destruct (decide (q = p)) as [->|Hne].
  - apply lookup_insert_eq.
  - apply lookup_insert_ne. exact Hne.
Qed.

(** A path that was written holds the table of its last write, which is no
    earlier than any given write to it. *)
Lemma last_write_later (ws : list (Path * Table)) (i : nat) (p : Path)
    (t : Table) :
  ws !! i = Some (p, t) ->
  exists j t', i <= j /\ ws !! j = Some (p, t') /\ last_write p ws = Some t'.
Proof.
  revert i. induction ws as [|[q u] ws IH]; intros i Hi; [discriminate|].
  destruct i as [|i]; simpl in Hi.
  - injection Hi as -> ->. simpl.
    destruct (last_write p ws) as [t'|] eqn:Hl.
    + assert (Hex : exists j, ws !! j = Some (p, t')).
      { clear -Hl. revert t' Hl.
        induction ws as [|[q u] ws IH]; intros t' Hl; [discriminate|].
        simpl in Hl. destruct (last_write p ws) as [t''|] eqn:Hl'.
        - injection Hl as <-. destruct (IH _ eq_refl) as [j Hj].
          exists (S j). exact Hj.
        - destruct (decide (q = p)) as [->|]; [|discriminate].
          injection Hl as <-. exists 0. reflexivity. }
      destruct Hex as [j Hj]. exists (S j), t'.
      split; [lia|]. split; [exact Hj|reflexivity].
    + exists 0, t. split; [lia|]. split; [reflexivity|].
      destruct (decide (p = p)); [reflexivity|contradiction].
  - destruct (IH _ Hi) as (j & t' & Hle & Hj & Hl).
    exists (S j), t'. split; [lia|]. split; [exact Hj|].
    simpl. rewrite Hl. reflexivity.
Qed.

Lemma written_file (w : World) (ops : list io_op) (i : nat) (p : Path)
    (t : Table) :
  writes ops !! i = Some (p, t) ->
  exists j t', i <= j /\ writes ops !! j = Some (p, t')
               /\ files (exec w ops) !! p = Some t'.
Proof.
  intros Hi. destruct (last_write_later _ _ _ _ Hi) as (j & t' & Hle & Hj & Hl).
  exists j, t'. split; [exact Hle|]. split; [exact Hj|].
  rewrite exec_files_lookup, Hl. reflexivity.
Qed.

(** ** The loop *)

Section Loop.

Variables (outdir : Path) (base : string) (header : Row).

Abbreviation body := (loop_body outdir base header).
Abbreviation loop := (for_rows outdir base header).
Abbreviation flush_ops := (flush_ops outdir base header).
Abbreviation well_formed := (well_formed header).
Abbreviation turn := (turn outdir base header).

Lemma writes_flush_ops (idx : nat) (buf : list Row) :
  writes (flush_ops idx buf) = [(pitch_file outdir base idx, header :: buf)].
Proof. reflexivity. Qed.

Lemma written_rows_flush_ops (idx : nat) (buf : list Row) :
  written_rows (flush_ops idx buf) = buf.
Proof. unfold written_rows. simpl. apply app_nil_r. Qed.

(** The loop body on each of its paths. *)
Lemma body_skip (st : locals) : body st [] = (st, []).
Proof. reflexivity. Qed.

Lemma body_flush (st : locals) (row : Row) :
  is_boundary row = true -> current_rows st <> [] ->
  body st row =
  (mkLocals (pitch_idx st + 1) [row],
   flush_ops (pitch_idx st + 1) (current_rows st)).
Proof.
  intros Hb Hne. destruct row as [|row0 fields]; [discriminate|].
  unfold loop_body. simpl in Hb. rewrite Hb.
  destruct (current_rows st) as [|b bs] eqn:Hbuf; [contradiction|].
  reflexivity.
Qed.

Lemma body_open (st : locals) (row : Row) :
  is_boundary row = true -> current_rows st = [] ->
  body st row = (mkLocals (pitch_idx st) [row], []).
Proof.
  intros Hb Hbuf. destruct row as [|row0 fields]; [discriminate|].
  unfold loop_body. simpl in Hb. rewrite Hb, Hbuf. simpl.
  rewrite Hbuf. reflexivity.
Qed.

Lemma body_keep (st : locals) (row : Row) :
  row <> [] -> is_boundary row = false ->
  body st row =
  (mkLocals (if negb (truthy (current_rows st)) then pitch_idx st + 1
             else pitch_idx st)
     (current_rows st ++ [row]), []).
Proof.
  intros Hne Hb. destruct row as [|row0 fields]; [contradiction|].
  unfold loop_body. simpl in Hb. rewrite Hb. reflexivity.
Qed.

Lemma body_turn (st : locals) (row : Row) : turn st row (body st row).
Proof.
  destruct row as [|row0 fields] eqn:Hrow.
  - rewrite body_skip. now constructor.
  - rewrite <- Hrow. assert (Hne : row <> []) by (rewrite Hrow; discriminate).
    destruct (is_boundary row) eqn:Hb.
    + destruct (current_rows st) as [|b bs] eqn:Hbuf.
      * rewrite body_open by assumption. now constructor.
      * rewrite body_flush; [|assumption|rewrite Hbuf; discriminate].
        constructor; [assumption|rewrite Hbuf; discriminate].
    + rewrite body_keep by assumption. now constructor.
Qed.

Lemma loop_cons (st : locals) (row : Row) (rest : list Row) :
  loop st (row :: rest) =
  (fst (loop (fst (body st row)) rest),
   snd (body st row) ++ snd (loop (fst (body st row)) rest)).
Proof.
  simpl. destruct (body st row) as [st1 ops1]. simpl.
  destruct (loop st1 rest) as [st2 ops2]. reflexivity.
Qed.

(** Rows without fields are skipped. *)
Lemma loop_data_rows (rows : list Row) (st : locals) :
  loop st rows = loop st (data_rows rows).
Proof.
  revert st. induction rows as [|row rest IH]; intros st; [reflexivity|].
  destruct row as [|row0 fields].
  - rewrite loop_cons, body_skip. simpl fst. simpl snd. simpl data_rows.
    rewrite <- IH. destruct (loop st rest); reflexivity.
  - change (data_rows ((row0 :: fields) :: rest))
      with ((row0 :: fields) :: data_rows rest).
    rewrite !loop_cons, IH. reflexivity.
Qed.

(** Every row that is not skipped goes to the buffer, and the buffer goes
    to a write when it is flushed: nothing is lost in between. *)
Lemma loop_rows (rows : list Row) (st : locals) :
  written_rows (snd (loop st rows)) ++ current_rows (fst (loop st rows))
  = current_rows st ++ data_rows rows.
Proof.
  revert st. induction rows as [|row rest IH]; intros st.
  - simpl. symmetry. apply app_nil_r.
  - rewrite loop_cons. simpl fst. simpl snd.
    rewrite written_rows_app, <- app_assoc, IH.
    destruct (body_turn st row) as [->|Hb Hne|Hb Hbuf|Hne Hb]; simpl.
    + reflexivity.
    + assert (truthy row = true) as -> by (destruct row; [discriminate|reflexivity]).
      rewrite written_rows_flush_ops. reflexivity.
    + assert (truthy row = true) as -> by (destruct row; [discriminate|reflexivity]).
      rewrite Hbuf. reflexivity.
    + assert (truthy row = true) as -> by (destruct row; [contradiction|reflexivity]).
      rewrite <- app_assoc. reflexivity.
Qed.

(** Once the buffer holds a row it never becomes empty again. *)
Lemma loop_buffer_kept (rows : list Row) (st : locals) :
  current_rows st <> [] -> current_rows (fst (loop st rows)) <> [].
Proof.
  revert st. induction rows as [|row rest IH]; intros st Hne; [exact Hne|].
  rewrite loop_cons. simpl fst. apply IH.
  destruct (body_turn st row) as [->|Hb _|Hb Hbuf|_ Hb]; simpl;
    try assumption; try discriminate.
  destruct (current_rows st); [contradiction|discriminate].
Qed.

(** With a row in the buffer, the counter advances by one at each boundary
    row, and only there. *)
Lemma loop_counter (rows : list Row) (st : locals) :
  current_rows st <> [] ->
  pitch_idx (fst (loop st rows)) = pitch_idx st + boundaries rows.
Proof.
  revert st. induction rows as [|row rest IH]; intros st Hne.
  - simpl. unfold boundaries. simpl. lia.
  - rewrite loop_cons. simpl fst. unfold boundaries. simpl List.filter.
    fold (boundaries rest).
    destruct (body_turn st row) as [->|Hb _|Hb Hbuf|Hrow Hb]; simpl fst.
    + simpl is_boundary. cbv iota. fold (boundaries rest). apply IH, Hne.
    + rewrite Hb, IH by discriminate. simpl. unfold boundaries. lia.
    + contradiction.
    + rewrite Hb, IH.
      * simpl. destruct (current_rows st); [contradiction|]. reflexivity.
      * simpl. destruct (current_rows st); [contradiction|discriminate].
Qed.

Lemma loop_well_formed (rows : list Row) (st : locals) :
  Forall well_formed (writes (snd (loop st rows))).
Proof.
  revert st. induction rows as [|row rest IH]; intros st; [constructor|].
  rewrite loop_cons. simpl snd. rewrite writes_app. apply Forall_app. split.
  - destruct (body_turn st row) as [->|Hb Hne|Hb Hbuf|Hne Hb]; simpl snd;
      try constructor; [|constructor].
    destruct (current_rows st) as [|b bs]; [contradiction|].
    exists b, bs. reflexivity.
  - apply IH.
Qed.

(** Started with a row in the buffer, every flush but the first writes a
    group that a boundary row opened; so does the first when the buffer at
    the start was opened by one; and after a flush, the buffer is opened by
    a boundary row. *)
Lemma loop_from_boundary (rows : list Row) (st : locals) :
  current_rows st <> [] ->
  Forall from_boundary (tail (writes (snd (loop st rows))))
  /\ (writes (snd (loop st rows)) <> [] ->
      opens_at_boundary (current_rows (fst (loop st rows))) = true)
  /\ (opens_at_boundary (current_rows st) = true ->
      Forall from_boundary (writes (snd (loop st rows)))
      /\ opens_at_boundary (current_rows (fst (loop st rows))) = true).
Proof.
  revert st. induction rows as [|row rest IH]; intros st Hne.
  - simpl. split; [constructor|]. split; [congruence|].
    intros Ho. split; [constructor|exact Ho].
  - rewrite loop_cons. simpl fst. simpl snd. rewrite writes_app.
    destruct (body_turn st row) as [->|Hb _|Hb Hbuf|Hrow Hb]; simpl fst;
      simpl snd.
    + apply IH, Hne.
    + rewrite writes_flush_ops. simpl app. simpl tail.
      destruct (IH (mkLocals (pitch_idx st + 1) [row])) as (_ & _ & Hall);
        [discriminate|].
      destruct (Hall Hb) as [Hws Hlast].
      split; [exact Hws|]. split; [intros _; exact Hlast|].
      intros Ho. split; [|exact Hlast].
      constructor; [|exact Hws].
      unfold from_boundary. simpl.
      destruct (current_rows st); [discriminate|exact Ho].
    + contradiction.
    + simpl app.
      set (st1 := mkLocals _ (current_rows st ++ [row])).
      destruct (IH st1) as (Htl & Hflushed & Hall).
      { subst st1. simpl. destruct (current_rows st); discriminate. }
      split; [exact Htl|]. split; [exact Hflushed|].
      intros Ho. apply Hall. subst st1. simpl.
      destruct (current_rows st); [discriminate|exact Ho].
Qed.

Lemma data_rows_truthy (rows : list Row) (r : Row) (rest : list Row) :
  data_rows rows = r :: rest -> r <> [].
Proof.
  intros H. assert (Hin : In r (data_rows rows)) by (rewrite H; now left).
  apply filter_In in Hin. destruct Hin as [_ Ht].
  destruct r; [discriminate|discriminate].
Qed.

(** The loop on an input whose rows are all skipped. *)
Lemma scan_nothing (rows : list Row) :
  data_rows rows = [] -> scan outdir base header rows = (mkLocals 0 [], []).
Proof. intros H. unfold scan. rewrite loop_data_rows, H. reflexivity. Qed.

(** The loop after the first row that is not skipped: that row is in the
    buffer, nothing is written yet, and the counter is 0 if the row is a
    boundary row and 1 if it is not. *)
Lemma scan_first (rows : list Row) (r : Row) (rest : list Row) :
  data_rows rows = r :: rest ->
  scan outdir base header rows
  = loop (mkLocals (if is_boundary r then 0 else 1) [r]) rest.
Proof.
  intros H. pose proof (data_rows_truthy _ _ _ H) as Hr.
  unfold scan. rewrite loop_data_rows, H, loop_cons.
  destruct (is_boundary r) eqn:Hb.
  - rewrite body_open by (assumption || reflexivity). simpl.
    destruct (loop _ rest); reflexivity.
  - rewrite body_keep by assumption. simpl.
    destruct (loop _ rest); reflexivity.
Qed.

Lemma writes_final_write (st : locals) :
  writes (final_write outdir base header st)
  = if truthy (current_rows st) then
      [(pitch_file outdir base
          (if 0 <? pitch_idx st then pitch_idx st else 1),
        header :: current_rows st)]
    else [].
Proof. unfold final_write. destruct (truthy (current_rows st)); reflexivity. Qed.

Lemma split_rows_eq (rows : list Row) :
  split_rows outdir base (header :: rows)
  = snd (scan outdir base header rows)
    ++ final_write outdir base header (fst (scan outdir base header rows)).
Proof.
  unfold split_rows. destruct (scan outdir base header rows). reflexivity.
Qed.

(** The rows written are the rows that were not skipped, in order. *)
Lemma split_rows_written (rows : list Row) :
  written_rows (split_rows outdir base (header :: rows)) = data_rows rows.
Proof.
  rewrite split_rows_eq, written_rows_app.
  pose proof (loop_rows rows (mkLocals 0 [])) as H. simpl in H.
  fold (scan outdir base header rows) in H. rewrite <- H. f_equal.
  unfold written_rows. rewrite writes_final_write.
  destruct (current_rows (fst (scan outdir base header rows)));
    [reflexivity|]. simpl. rewrite app_nil_r. reflexivity.
Qed.

Lemma split_rows_well_formed (rows : list Row) :
  Forall well_formed (writes (split_rows outdir base (header :: rows))).
Proof.
  rewrite split_rows_eq, writes_app. apply Forall_app. split.
  - apply loop_well_formed.
  - rewrite writes_final_write.
    destruct (current_rows (fst (scan outdir base header rows))) as [|b bs];
      simpl; constructor; [|constructor].
    exists b, bs. reflexivity.
Qed.

(** Every group written after the first one was opened by a boundary row,
    and so was the first one when the first row that is not skipped is a
    boundary row. *)
Lemma split_rows_from_boundary (rows : list Row) :
  Forall from_boundary
    (tail (writes (split_rows outdir base (header :: rows))))
  /\ (opens_at_boundary (data_rows rows) = true ->
      Forall from_boundary
        (writes (split_rows outdir base (header :: rows)))).
Proof.
  rewrite split_rows_eq, writes_app, writes_final_write.
  destruct (data_rows rows) as [|r rest] eqn:Hd.
  - rewrite (scan_nothing _ Hd). simpl. split; [constructor|discriminate].
  - rewrite (scan_first _ _ _ Hd).
    set (st0 := mkLocals (if is_boundary r then 0 else 1) [r]).
    destruct (loop_from_boundary rest st0) as (Htl & Hflushed & Hall);
      [discriminate|].
    pose proof (loop_buffer_kept rest st0) as Hkept.
    destruct (current_rows (fst (loop st0 rest))) as [|b bs] eqn:Hbuf;
      [exfalso; apply Hkept; [discriminate|reflexivity]|].
    simpl truthy. cbv iota. split.
    + destruct (writes (snd (loop st0 rest))) as [|pt ws] eqn:Hws.
      * constructor.
      * simpl. simpl in Htl. apply Forall_app. split; [exact Htl|].
        constructor; [|constructor]. unfold from_boundary. simpl.
        apply Hflushed. discriminate.
    + intros Ho. simpl in Ho. destruct (Hall Ho) as [Hws Hlast].
      apply Forall_app. split; [exact Hws|].
      constructor; [|constructor]. exact Hlast.
Qed.

End Loop.

(** ** Tables written and files left *)

Lemma opens_data_rows (rows : list Row) :
  opens_at_boundary rows = true -> opens_at_boundary (data_rows rows) = true.
Proof.
  destruct rows as [|r rest]; [discriminate|]. simpl. intros Hb.
  destruct r as [|row0 fields]; [discriminate|]. exact Hb.
Qed.

Lemma group_lookup (ops : list io_op) (i : nat) (pt : Path * Table) :
  group ops i = Some pt -> exists k, i = S k /\ writes ops !! k = Some pt.
Proof.
  destruct i as [|k]; [discriminate|]. intros H. exists k. split; [reflexivity|exact H].
Qed.

(** The table of every write but the first opens at a boundary row, and so
    does the first when the input does. *)
Lemma write_from_boundary (outdir : Path) (base : string) (header : Row)
    (rows : list Row) (k : nat) (pt : Path * Table) :
  writes (split_rows outdir base (header :: rows)) !! k = Some pt ->
  1 <= k \/ opens_at_boundary rows = true ->
  from_boundary pt.
Proof.
  intros Hk Hor.
  destruct (split_rows_from_boundary outdir base header rows) as [Htl Hall].
  destruct Hor as [Hpos|Ho].
  - destruct k as [|k]; [lia|].
    destruct (writes (split_rows outdir base (header :: rows))) as [|pt0 ws];
      [discriminate|].
    simpl in Hk, Htl. rewrite Forall_lookup in Htl. exact (Htl k pt Hk).
  - specialize (Hall (opens_data_rows _ Ho)). rewrite Forall_lookup in Hall.
    exact (Hall k pt Hk).
Qed.

(** A table written has the header on top and a row below it, and so has the
    file that is left at its path. *)
Lemma written_well_formed (w : World) (outdir : Path) (base : string)
    (header : Row) (rows : list Row) (p : Path) (t : Table) :
  In (p, t) (writes (split_rows outdir base (header :: rows))) ->
  well_formed header (p, t)
  /\ exists t',
      files (exec w (split_rows outdir base (header :: rows))) !! p = Some t'
      /\ well_formed header (p, t').
Proof.
  intros Hin.
  pose proof (split_rows_well_formed outdir base header rows) as Hwf.
  rewrite Forall_lookup in Hwf.
  apply list_elem_of_In, list_elem_of_lookup in Hin. destruct Hin as [i Hi].
  split; [exact (Hwf i _ Hi)|].
  destruct (written_file w _ _ _ _ Hi) as (j & t' & _ & Hj & Hfile).
  exists t'. split; [exact Hfile|exact (Hwf j _ Hj)].
Qed.

(** ** The indices of the files written *)

Section Indices.

Variables (outdir : Path) (base : string) (header : Row).

Lemma boundaries_cons (row : Row) (rest : list Row) :
  boundaries (row :: rest)
  = (if is_boundary row then 1 else 0) + boundaries rest.
Proof. unfold boundaries. simpl. destruct (is_boundary row); reflexivity. Qed.

Lemma boundaries_none (rows : list Row) :
  boundaries rows = 0 <-> Forall (fun r => is_boundary r = false) rows.
Proof.
  induction rows as [|row rest IH].
  - split; [constructor|reflexivity].
  - rewrite boundaries_cons, Forall_cons. destruct (is_boundary row).
    + split; [discriminate|]. intros [H _]. discriminate.
    + simpl. rewrite IH. split; [intros H; split; [reflexivity|exact H]|].
      intros [_ H]. exact H.
Qed.

(** With a row in the buffer, the flushes of the loop go to the files
    numbered from the counter plus one on, one per boundary row. *)
Lemma loop_write_paths (rows : list Row) (st : locals) :
  current_rows st <> [] ->
  map fst (writes (snd (for_rows outdir base header st rows)))
  = map (pitch_file outdir base) (seq (pitch_idx st + 1) (boundaries rows)).
Proof.
  revert st. induction rows as [|row rest IH]; intros st Hne; [reflexivity|].
  rewrite loop_cons, boundaries_cons. simpl snd. rewrite writes_app, map_app.
  destruct (body_turn outdir base header st row) as [->|Hb _|Hb Hbuf|Hrow Hb];
    simpl fst; simpl snd.
  - simpl. apply IH, Hne.
  - rewrite Hb, writes_flush_ops, IH by discriminate. simpl.
    replace (pitch_idx st + 1 + 1) with (S (pitch_idx st + 1)) by lia.
    reflexivity.
  - contradiction.
  - rewrite Hb. simpl. rewrite IH.
    + simpl. destruct (current_rows st); [contradiction|reflexivity].
    + simpl. destruct (current_rows st); discriminate.
Qed.

(** The files a run writes to, in order: with [k] the counter once the
    first row is buffered and [m] the number of boundary rows after that
    row, the flushes go to [k+1], ..., [k+m] and the write at the end of the
    input to [k+m] again, or to 1 when [k+m] is 0. *)
Lemma split_rows_paths (rows : list Row) (r : Row) (rest : list Row) :
  data_rows rows = r :: rest ->
  let k := if is_boundary r then 0 else 1 in
  let m := boundaries rest in
  map fst (writes (split_rows outdir base (header :: rows)))
  = map (pitch_file outdir base)
      (seq (k + 1) m ++ [if 0 <? k + m then k + m else 1]).
Proof.
  intros Hd k m. rewrite split_rows_eq, writes_app, writes_final_write.
  rewrite (scan_first _ _ _ _ _ _ Hd). fold k.
  set (st0 := mkLocals k [r]).
  assert (Hne : current_rows st0 <> []) by discriminate.
  rewrite !map_app, (loop_write_paths rest st0 Hne).
  rewrite (loop_counter outdir base header rest st0 Hne).
  pose proof (loop_buffer_kept outdir base header rest st0 Hne) as Hkept.
  destruct (current_rows (fst (for_rows outdir base header st0 rest)));
    [contradiction|]. reflexivity.
Qed.

(** As soon as the loop flushes once, the write at the end of the input
    goes to the file of the last flush. *)
Lemma final_write_reuses_path (rows : list Row) (r : Row) (rest : list Row) :
  data_rows rows = r :: rest ->
  0 < boundaries rest ->
  exists (earlier : list Path) (p : Path),
    map fst (writes (split_rows outdir base (header :: rows)))
    = earlier ++ [p; p].
Proof.
  intros Hd Hm. rewrite (split_rows_paths _ _ _ Hd).
  destruct (boundaries rest) as [|m]; [lia|].
  set (k := if is_boundary r then 0 else 1).
  rewrite seq_S, map_app, map_app, <- app_assoc. simpl.
  exists (map (pitch_file outdir base) (seq (k + 1) m)),
    (pitch_file outdir base (k + 1 + m)).
  replace (0 <? k + S m) with true by (symmetry; apply Nat.ltb_lt; lia).
  replace (k + S m) with (k + 1 + m) by lia. reflexivity.
Qed.

(** A leading group that a boundary row closes goes to file 2. *)
Lemma leading_group_path (rows : list Row) (r : Row) (rest : list Row) :
  data_rows rows = r :: rest ->
  is_boundary r = false ->
  0 < boundaries rest ->
  head (map fst (writes (split_rows outdir base (header :: rows))))
  = Some (pitch_file outdir base 2).
Proof.
  intros Hd Hb Hm. rewrite (split_rows_paths _ _ _ Hd), Hb.
  destruct (boundaries rest) as [|m]; [lia|]. reflexivity.
Qed.

(** The locals when the input ends. *)
Lemma scan_locals (rows : list Row) (r : Row) (rest : list Row) :
  data_rows rows = r :: rest ->
  pitch_idx (fst (scan outdir base header rows))
  = (if is_boundary r then 0 else 1) + boundaries rest
  /\ current_rows (fst (scan outdir base header rows)) <> [].
Proof.
  intros Hd. rewrite (scan_first _ _ _ _ _ _ Hd). split.
  - rewrite loop_counter by discriminate. reflexivity.
  - apply loop_buffer_kept. discriminate.
Qed.

End Indices.

(** When no boundary row follows the first row that has a field, the run
    writes once, to file 1, and that file holds every row with a field. *)
Lemma single_group_file (w : World) (outdir : Path) (base : string)
    (header : Row) (rows : list Row) (r : Row) (rest : list Row) :
  data_rows rows = r :: rest ->
  boundaries rest = 0 ->
  writes (split_rows outdir base (header :: rows))
  = [(pitch_file outdir base 1, header :: data_rows rows)]
  /\ files (exec w (split_rows outdir base (header :: rows)))
     = <[pitch_file outdir base 1 := header :: data_rows rows]> (files w).
Proof.
  intros Hd Hm.
  pose proof (split_rows_paths outdir base header _ _ _ Hd) as Hpaths.
  pose proof (split_rows_written outdir base header rows) as Hrows.
  pose proof (split_rows_well_formed outdir base header rows) as Hwf.
  assert (Hone : (if 0 <? (if is_boundary r then 0 else 1) + 0
                  then (if is_boundary r then 0 else 1) + 0 else 1) = 1)
    by (destruct (is_boundary r); reflexivity).
  cbv zeta in Hpaths. rewrite Hm, Hone in Hpaths.
  change (map fst (writes (split_rows outdir base (header :: rows)))
          = [pitch_file outdir base 1]) in Hpaths.
  unfold written_rows in Hrows.
  assert (Hws : writes (split_rows outdir base (header :: rows))
                = [(pitch_file outdir base 1, header :: data_rows rows)]).
  { destruct (writes (split_rows outdir base (header :: rows)))
      as [|[p t] [|pt ws]]; try discriminate.
    simpl in Hpaths, Hrows. injection Hpaths as ->.
    apply Forall_inv in Hwf. destruct Hwf as (r' & g & Ht). simpl in Ht.
    subst t. simpl in Hrows. rewrite app_nil_r in Hrows. rewrite Hrows.
    reflexivity. }
  split; [exact Hws|]. apply map_eq. intros p.
  rewrite exec_files_lookup, Hws. simpl.
  destruct (decide (pitch_file outdir base 1 = p)) as [<-|Hne].
  - rewrite lookup_insert_eq. reflexivity.
  - rewrite lookup_insert_ne by exact Hne. reflexivity.
Qed.

(** ** The properties of the specification *)

(** C1, as amended.  For every input table with a header, the rows below the
    header of the tables that [split_file] writes, concatenated in the order
    in which they are written, are exactly the rows of the input below its
    header that have at least one field, in their original order: none of
    them is written twice and none is left out.  Rows without fields are
    skipped.  When no boundary row follows the first row that has a field,
    the run changes one file, pitch file 1, and that file holds the header
    and exactly those rows. *)
Theorem written_rows_partition (w : World) (outdir : Path) (base : string)
    (header : Row) (rows : list Row) :
  written_rows (split_rows outdir base (header :: rows)) = data_rows rows
  /\ (data_rows rows <> [] ->
      boundaries (tail (data_rows rows)) = 0 ->
      files (exec w (split_rows outdir base (header :: rows)))
      = <[pitch_file outdir base 1 := header :: data_rows rows]> (files w)).
Proof.
  split; [apply split_rows_written|]. intros Hne Hm.
  destruct (data_rows rows) as [|r rest] eqn:Hd; [contradiction|].
  rewrite <- Hd. exact (proj2 (single_group_file w _ _ _ _ _ _ Hd Hm)).
Qed.

Lemma written_rows_partition_witness :
  written_rows (split_rows split_dir "pitches" one_pitch) = tail one_pitch
  /\ files (exec empty_world (split_rows split_dir "pitches" one_pitch))
     = <[pitch_file split_dir "pitches" 1 := one_pitch]> (files empty_world).
Proof.
  destruct (written_rows_partition empty_world split_dir "pitches"
              pitch_header (tail one_pitch)) as [Hrows Hfile].
  split; [exact Hrows|]. apply Hfile; [discriminate|reflexivity].
Defined.

(** C1, as stated, fails on an input that ends with a blank line: the one
    file written holds one row, the input has two rows below its header. *)
Lemma partition_claim_blank_line :
  ~ partition_claim split_dir "pitches" blank_line.
Proof.
  intros H. specialize (H 1).
  assert (Hall : Forall (fun pt => exists idx, 1 <= idx <= 1
                          /\ fst pt = pitch_file split_dir "pitches" idx)
                   (writes (split_rows split_dir "pitches" blank_line))).
  { repeat constructor. exists 1. split; [lia|reflexivity]. }
  specialize (H Hall). vm_compute in H. discriminate H.
Qed.

(** The same sentence fails without any blank line, by the write at the end
    of the input: on the two-pitch scenario the files hold two of the four
    rows. *)
Lemma partition_claim_two_pitches :
  ~ partition_claim split_dir "pitches" two_pitches.
Proof.
  intros H. specialize (H 1).
  assert (Hall : Forall (fun pt => exists idx, 1 <= idx <= 1
                          /\ fst pt = pitch_file split_dir "pitches" idx)
                   (writes (split_rows split_dir "pitches" two_pitches))).
  { repeat constructor; exists 1; (split; [lia|reflexivity]). }
  specialize (H Hall). vm_compute in H. discriminate H.
Qed.

(** C2.  On the scenario of the specification, a header and the rows
    [0.0], [0.1], [0.0], [0.2], the run writes twice to [pitch_001]: the
    flush of the first two rows, then the last two rows at the end of the
    input under the same counter.  One pitch file is left beside the
    input, it holds the last two rows, and there is no [pitch_002]. *)
Theorem two_pitches_one_file :
  fst (main (world_with two_pitches) pitches_args) = Returned
  /\ writes (split_rows split_dir "pitches" two_pitches)
     = [(split_dir ++ ["pitches_pitch_001.csv"],
         [pitch_header; sample "0.0"; sample "0.1"]);
        (split_dir ++ ["pitches_pitch_001.csv"],
         [pitch_header; sample "0.0"; sample "0.2"])]
  /\ files (snd (main (world_with two_pitches) pitches_args))
       !! (split_dir ++ ["pitches_pitch_001.csv"])
     = Some [pitch_header; sample "0.0"; sample "0.2"]
  /\ files (snd (main (world_with two_pitches) pitches_args))
       !! (split_dir ++ ["pitches_pitch_002.csv"]) = None
  /\ size (files (snd (main (world_with two_pitches) pitches_args))) = 2
  /\ stdout (snd (main (world_with two_pitches) pitches_args))
     = ["Wrote Data/split/pitches_pitch_001.csv (2 rows)";
        "Wrote Data/split/pitches_pitch_001.csv (2 rows)"].
Proof. vm_compute. repeat split. Qed.

(** C3.  On a header, a row [0.5] and a row [0.0], the leading row is
    written to [pitch_002], not to [pitch_001]: the counter is advanced when
    the row is buffered and again when the boundary row flushes it.  The
    write at the end of the input then replaces that file, so that no file
    holds the leading row. *)
Theorem leading_rows_in_second_file :
  writes (split_rows split_dir "pitches" leading_rows)
  = [(split_dir ++ ["pitches_pitch_002.csv"], [pitch_header; sample "0.5"]);
     (split_dir ++ ["pitches_pitch_002.csv"], [pitch_header; sample "0.0"])]
  /\ files (snd (main (world_with leading_rows) pitches_args))
       !! (split_dir ++ ["pitches_pitch_001.csv"]) = None
  /\ files (snd (main (world_with leading_rows) pitches_args))
       !! (split_dir ++ ["pitches_pitch_002.csv"])
     = Some [pitch_header; sample "0.0"]
  /\ size (files (snd (main (world_with leading_rows) pitches_args))) = 2.
Proof. vm_compute. repeat split. Qed.

(** C4.  Number the groups in the order in which they are written, from 1.
    For every input with a header and every group [i] written, if [i > 1],
    or if [i = 1] and the first row below the header is a boundary row, the
    table written for group [i] has a boundary row right below its header,
    and so has the file found at its path when the run is over. *)
Theorem boundary_correctness (w : World) (outdir : Path) (base : string)
    (header : Row) (rows : list Row) (i : nat) (p : Path) (t : Table) :
  group (split_rows outdir base (header :: rows)) i = Some (p, t) ->
  1 < i \/ (i = 1 /\ opens_at_boundary rows = true) ->
  starts_at_boundary t = true
  /\ exists t',
      files (exec w (split_rows outdir base (header :: rows))) !! p = Some t'
      /\ starts_at_boundary t' = true.
Proof.
  intros Hg Hi. apply group_lookup in Hg. destruct Hg as (k & -> & Hk).
  assert (Hlater : forall j pt,
    k <= j ->
    writes (split_rows outdir base (header :: rows)) !! j = Some pt ->
    from_boundary pt).
  { intros j pt Hle Hj. apply (write_from_boundary _ _ _ _ _ _ Hj).
    destruct Hi as [Hi|[_ Ho]]; [left; lia|right; exact Ho]. }
  split.
  - exact (Hlater k (p, t) (le_n k) Hk).
  - destruct (written_file w _ _ _ _ Hk) as (j & t' & Hle & Hj & Hfile).
    exists t'. split; [exact Hfile|]. exact (Hlater j (p, t') Hle Hj).
Qed.

Lemma boundary_correctness_witness :
  starts_at_boundary [pitch_header; sample "0.0"; sample "0.2"] = true
  /\ exists t',
      files (exec empty_world (split_rows split_dir "pitches" two_pitches))
        !! (split_dir ++ ["pitches_pitch_001.csv"]) = Some t'
      /\ starts_at_boundary t' = true.
Proof.
  apply (boundary_correctness empty_world split_dir "pitches" pitch_header
           (tail two_pitches) 2).
  - vm_compute. reflexivity.
  - left. lia.
Defined.

(** C5, as amended.  At the end of the input the substitution of index 1 is
    reached exactly when the first row that has a field is a boundary row
    and no later row is one, that is when a boundary row opened the only
    group and nothing was flushed.  It is not reached when the first row
    with a field is no boundary row, nor after a flush. *)
Theorem fallback_reached_exactly (outdir : Path) (base : string)
    (header : Row) (rows : list Row) :
  fallback_taken outdir base header rows
  = match data_rows rows with
    | r :: rest => is_boundary r && (boundaries rest =? 0)
    | [] => false
    end.
Proof.
  unfold fallback_taken. destruct (data_rows rows) as [|r rest] eqn:Hd.
  - rewrite (scan_nothing _ _ _ _ Hd). reflexivity.
  - destruct (scan_locals outdir base header _ _ _ Hd) as [Hidx Hbuf].
    rewrite Hidx.
    destruct (current_rows (fst (scan outdir base header rows)));
      [contradiction|].
    simpl truthy. cbv iota. simpl andb.
    destruct (is_boundary r); simpl.
    + destruct (boundaries rest); reflexivity.
    + reflexivity.
Qed.

(** C5, as stated, fails on a header followed by one pitch that a boundary
    row opens: the counter is 0 at the end of the input and the buffer
    holds the rows. *)
Lemma fallback_reached_one_pitch :
  ~ fallback_unreachable split_dir "pitches" one_pitch.
Proof. vm_compute. discriminate. Qed.

(** C6.  Every table written has the header of the input as its first row,
    and so has every file that the run leaves at a path it wrote to. *)
Theorem header_propagation (w : World) (outdir : Path) (base : string)
    (header : Row) (rows : list Row) (p : Path) (t : Table) :
  In (p, t) (writes (split_rows outdir base (header :: rows))) ->
  head t = Some header
  /\ exists t',
      files (exec w (split_rows outdir base (header :: rows))) !! p = Some t'
      /\ head t' = Some header.
Proof.
  intros Hin.
  destruct (written_well_formed w _ _ _ _ _ _ Hin)
    as [(r & g & Ht) (t' & Hfile & (r' & g' & Ht'))].
  simpl in Ht, Ht'. subst t t'. split; [reflexivity|].
  eexists. split; [exact Hfile|reflexivity].
Qed.

Lemma header_propagation_witness :
  head [pitch_header; sample "0.0"; sample "0.1"] = Some pitch_header
  /\ exists t',
      files (exec empty_world (split_rows split_dir "pitches" two_pitches))
        !! (split_dir ++ ["pitches_pitch_001.csv"]) = Some t'
      /\ head t' = Some pitch_header.
Proof.
  apply (header_propagation empty_world split_dir "pitches" pitch_header
           (tail two_pitches)).
  vm_compute. left. reflexivity.
Defined.

(** C7.  A row whose field 0 does not read as a floating-point number is no
    boundary row: whatever the locals are, its turn of the loop issues no
    operation, hence no flush, and puts the row at the end of the buffer;
    and wherever the row stands in the input, it is among the rows
    written. *)
Theorem unparsable_row_retained (outdir : Path) (base : string)
    (header : Row) (row0 : string) (fields : list string) :
  time_of row0 = None ->
  is_boundary (row0 :: fields) = false
  /\ (forall st : locals,
        snd (loop_body outdir base header st (row0 :: fields)) = []
        /\ current_rows (fst (loop_body outdir base header st (row0 :: fields)))
           = current_rows st ++ [row0 :: fields])
  /\ (forall rows : list Row,
        In (row0 :: fields) rows ->
        In (row0 :: fields)
          (written_rows (split_rows outdir base (header :: rows)))).
Proof.
  intros Hnone.
  assert (Hb : is_boundary (row0 :: fields) = false)
    by (simpl; rewrite Hnone; reflexivity).
  split; [exact Hb|]. split.
  - intros st. rewrite body_keep by (discriminate || exact Hb).
    split; reflexivity.
  - intros rows Hin. rewrite split_rows_written. apply filter_In.
    split; [exact Hin|reflexivity].
Qed.

Lemma unparsable_row_retained_witness :
  is_boundary (sample "NaNtext") = false
  /\ (forall st : locals,
        snd (loop_body split_dir "pitches" pitch_header st (sample "NaNtext"))
        = []
        /\ current_rows
             (fst (loop_body split_dir "pitches" pitch_header st
                     (sample "NaNtext")))
           = current_rows st ++ [sample "NaNtext"])
  /\ (forall rows : list Row,
        In (sample "NaNtext") rows ->
        In (sample "NaNtext")
          (written_rows (split_rows split_dir "pitches" (pitch_header :: rows)))).
Proof.
  apply (unparsable_row_retained split_dir "pitches" pitch_header "NaNtext"
           ["1.5"; "2.5"; "3.5"]).
  reflexivity.
Defined.

(** C8.  When the input path does not exist, [main] ends by [SystemExit]
    with a message that names the path, the exit status is not 0, and the
    world is the one [main] started in: no file is written, no directory
    is created, nothing is printed. *)
Theorem missing_input_exits (w : World) (a : args) :
  path_exists w (PyPath.of_string (input a)) = false ->
  main w a
  = (SystemExit ("Input file not found: "
                 +:+ PyPath.to_string (PyPath.of_string (input a))), w)
  /\ exit_status (fst (main w a)) <> 0.
Proof.
  intros Hex. unfold main. rewrite Hex. simpl. split; [reflexivity|discriminate].
Qed.

Lemma missing_input_exits_witness :
  main empty_world pitches_args
  = (SystemExit "Input file not found: Data/pitches.csv", empty_world)
  /\ exit_status (fst (main empty_world pitches_args)) <> 0.
Proof.
  apply (missing_input_exits empty_world pitches_args).
  vm_compute. reflexivity.
Defined.

(** C9.  When the input has no row at all, [split_file] prints one message
    and returns; when it has a header and nothing else, [split_file]
    returns without any operation.  In both cases nothing is written: the
    files and the directories are those [split_file] started with. *)
Theorem empty_input_writes_nothing (w : World) (input_path outdir : Path)
    (reader : Table) :
  files w !! input_path = Some reader ->
  length reader <= 1 ->
  writes (split_rows outdir (PyPath.stem input_path) reader) = []
  /\ split_file w input_path outdir
     = (Returned,
        mkWorld (dirs w) (files w)
          (stdout w ++ match reader with
                       | [] => ["Input file is empty"]
                       | _ :: _ => []
                       end)).
Proof.
  intros Hfile Hlen. unfold split_file. rewrite Hfile.
  destruct reader as [|header [|row rest]]; simpl in Hlen; [| |lia].
  - split; reflexivity.
  - split; [reflexivity|]. simpl. rewrite app_nil_r. destruct w; reflexivity.
Qed.

Lemma empty_input_writes_nothing_witness :
  writes (split_rows split_dir (PyPath.stem ["Data"; "pitches.csv"]) []) = []
  /\ split_file (world_with []) ["Data"; "pitches.csv"] split_dir
     = (Returned,
        mkWorld (dirs (world_with [])) (files (world_with []))
          (stdout (world_with []) ++ ["Input file is empty"])).
Proof.
  apply (empty_input_writes_nothing (world_with []) ["Data"; "pitches.csv"]
           split_dir []).
  - vm_compute. reflexivity.
  - simpl. lia.
Defined.

(** C10.  Every table written holds the header and at least one row below
    it: [write_pitch] is called with a buffer that holds a row, at a flush
    and at the end of the input alike.  The file that the run leaves at a
    path it wrote to has a row below the header as well. *)
Theorem no_header_only_file (w : World) (outdir : Path) (base : string)
    (header : Row) (rows : list Row) (p : Path) (t : Table) :
  In (p, t) (writes (split_rows outdir base (header :: rows))) ->
  (exists r g, t = header :: r :: g)
  /\ exists t' r' g',
      files (exec w (split_rows outdir base (header :: rows))) !! p = Some t'
      /\ t' = header :: r' :: g'.
Proof.
  intros Hin.
  destruct (written_well_formed w _ _ _ _ _ _ Hin)
    as [Ht (t' & Hfile & (r' & g' & Ht'))].
  split; [exact Ht|]. exists t', r', g'. split; [exact Hfile|exact Ht'].
Qed.

Lemma no_header_only_file_witness :
  (exists r g, [pitch_header; sample "0.5"] = pitch_header :: r :: g)
  /\ exists t' r' g',
      files (exec empty_world (split_rows split_dir "pitches" leading_rows))
        !! (split_dir ++ ["pitches_pitch_002.csv"]) = Some t'
      /\ t' = pitch_header :: r' :: g'.
Proof.
  apply (no_header_only_file empty_world split_dir "pitches" pitch_header
           (tail leading_rows)).
  vm_compute. left. reflexivity.
Defined.

(** ** Further runs *)

(** A row whose field 0 is text, in the middle of a pitch, stays in it. *)
Example text_row_one_file :
  writes (split_rows split_dir "pitches" text_row)
  = [(split_dir ++ ["pitches_pitch_001.csv"], text_row)].
Proof. vm_compute. reflexivity. Qed.

(** Under the numbers in the file names, as opposed to the order of writing,
    the leading rows are in file 2 and there is no file 1. *)
Example leading_then_two_files :
  map (fun idx =>
         files (exec empty_world
                  (split_rows split_dir "pitches" leading_then_two))
           !! pitch_file split_dir "pitches" idx) [1; 2; 3; 4]
  = [None; Some [pitch_header; sample "0.5"];
     Some [pitch_header; sample "0.0"]; None].
Proof. vm_compute. reflexivity. Qed.

(** ** File names *)

Lemma string_length_append (s t : string) :
  String.length (s +:+ t) = String.length s + String.length t.
Proof. induction s as [|c s IH]; simpl; [reflexivity|]. rewrite IH. reflexivity. Qed.

Lemma append_inv_tail (t x y : string) : x +:+ t = y +:+ t -> x = y.
Proof.
  revert y. induction x as [|a x IH]; intros [|b y] H; simpl in H.
  - reflexivity.
  - apply (f_equal String.length) in H. simpl in H.
    rewrite ?string_length_append in H. simpl in H. lia.
  - apply (f_equal String.length) in H. simpl in H.
    rewrite ?string_length_append in H. simpl in H. lia.
  - injection H as -> H. f_equal. apply IH, H.
Qed.

Lemma zeros_succ (k : nat) : zeros (S k) = String "0" (zeros k).
Proof. unfold zeros. destruct k; reflexivity. Qed.

Lemma zeros_length (k : nat) : String.length (zeros k) = k.
Proof.
  induction k as [|k IH]; [reflexivity|]. rewrite zeros_succ. simpl.
  rewrite IH. reflexivity.
Qed.

Lemma index_of_digits_zeros (k : nat) (s : string) :
  index_of_digits (zeros k +:+ s) = index_of_digits s.
Proof.
  induction k as [|k IH]; [reflexivity|]. rewrite zeros_succ. simpl.
  unfold index_of_digits in *. simpl.
  destruct (NilEmpty.uint_of_string (zeros k +:+ s)) as [d|];
    destruct (NilEmpty.uint_of_string s) as [d'|]; simpl in *;
    try discriminate; try reflexivity.
  injection IH as IH. f_equal. exact IH.
Qed.

Lemma index_of_digits_dec (n : nat) : index_of_digits (dec n) = Some n.
Proof.
  unfold index_of_digits, dec.
  assert (H : forall d, option_map Nat.of_uint
                (NilEmpty.uint_of_string (NilZero.string_of_uint d))
              = Some (Nat.of_uint d)).
  { intros d. destruct d; try (unfold NilZero.string_of_uint;
      rewrite NilEmpty.usu; reflexivity). reflexivity. }
  rewrite H, DecimalNat.Unsigned.of_to. reflexivity.
Qed.

Lemma fmt03_zeros (idx : nat) :
  fmt03 idx = zeros (3 - String.length (dec idx)) +:+ dec idx.
Proof. reflexivity. Qed.

Lemma fmt03_inj (i j : nat) : fmt03 i = fmt03 j -> i = j.
Proof.
  intros H. apply (f_equal index_of_digits) in H.
  rewrite !fmt03_zeros, !index_of_digits_zeros, !index_of_digits_dec in H.
  injection H as H. exact H.
Qed.

Lemma pitch_file_eq (outdir : Path) (base : string) (idx : nat) :
  pitch_file outdir base idx
  = outdir ++ [base +:+ "_pitch_" +:+ fmt03 idx +:+ ".csv"].
Proof. reflexivity. Qed.

Lemma pitch_file_inj (outdir : Path) (base : string) (i j : nat) :
  pitch_file outdir base i = pitch_file outdir base j -> i = j.
Proof.
  rewrite !pitch_file_eq. intros H. apply app_inv_head in H.
  injection H as H. apply String.app_inj in H. apply String.app_inj in H.
  apply append_inv_tail in H. apply fmt03_inj, H.
Qed.

(** X1.  The digits of a pitch file name read back as the index that was
    formatted, whatever the index: the zeros added on the left do not change
    the number, and an index of more than three digits is not cut.  The
    field is three characters wide, or as wide as the number when that is
    more. *)
Theorem fmt03_round_trip (idx : nat) :
  index_of_digits (fmt03 idx) = Some idx
  /\ String.length (fmt03 idx) = Nat.max 3 (String.length (dec idx)).
Proof.
  rewrite fmt03_zeros, index_of_digits_zeros, index_of_digits_dec.
  split; [reflexivity|].
  rewrite string_length_append, zeros_length. lia.
Qed.

(** X2.  Different indices give different pitch files: [write_pitch] never
    sends two indices to one path, whatever it is given to write. *)
Theorem distinct_indices_distinct_files (outdir : Path) (base : string)
    (i j : nat) (header1 header2 : Row) (rows1 rows2 : list Row) :
  i <> j ->
  fst (write_pitch outdir base i header1 rows1)
  <> fst (write_pitch outdir base j header2 rows2).
Proof. intros Hne H. apply Hne. exact (pitch_file_inj outdir base i j H). Qed.

Lemma distinct_indices_distinct_files_witness :
  fst (write_pitch split_dir "pitches" 1 pitch_header [sample "0.0"])
  <> fst (write_pitch split_dir "pitches" 1000 pitch_header [sample "0.1"]).
Proof.
  apply (distinct_indices_distinct_files split_dir "pitches" 1 1000). lia.
Defined.

(** ** Directories and printed lines *)

Lemma exec_snoc (w : World) (ops : list io_op) (op : io_op) :
  exec w (ops ++ [op]) = exec_op (exec w ops) op.
Proof. unfold exec. rewrite fold_left_app. reflexivity. Qed.

Lemma exec_stdout (ops : list io_op) (w : World) :
  stdout (exec w ops) = stdout w ++ prints ops.
Proof.
  revert w. induction ops as [|op ops IH]; intros w.
  - simpl. symmetry. apply app_nil_r.
  - change (exec w (op :: ops)) with (exec (exec_op w op) ops). rewrite IH.
    destruct op; simpl; try reflexivity. rewrite <- app_assoc. reflexivity.
Qed.



Section Blocks.

Variables (outdir : Path) (base : string) (header : Row).

Lemma flush_ops_block (idx : nat) (buf : list Row) :
  flush_ops outdir base header idx buf
  = write_block outdir (pitch_file outdir base idx, header :: buf).
Proof.
  unfold flush_ops, write_block, wrote, confirmation. simpl.
  rewrite Nat.sub_0_r. reflexivity.
Qed.

Lemma loop_blocks (rows : list Row) (st : locals) :
  snd (for_rows outdir base header st rows)
  = flat_map (write_block outdir)
      (writes (snd (for_rows outdir base header st rows))).
Proof.
  revert st. induction rows as [|row rest IH]; intros st; [reflexivity|].
  rewrite loop_cons. simpl snd. rewrite writes_app, flat_map_app, <- IH.
  f_equal.
  destruct (body_turn outdir base header st row) as [->|Hb Hne|Hb Hbuf|Hne Hb];
    simpl snd; try reflexivity.
  rewrite writes_flush_ops, flush_ops_block. reflexivity.
Qed.

Lemma final_write_block (st : locals) :
  final_write outdir base header st
  = flat_map (write_block outdir) (writes (final_write outdir base header st)).
Proof.
  rewrite writes_final_write. unfold final_write.
  destruct (truthy (current_rows st)); [|reflexivity].
  apply (flush_ops_block _ (current_rows st)).
Qed.

(** A run is a sequence of blocks, one per write. *)
Lemma split_rows_blocks (rows : list Row) :
  split_rows outdir base (header :: rows)
  = flat_map (write_block outdir)
      (writes (split_rows outdir base (header :: rows))).
Proof.
  rewrite split_rows_eq, writes_app, flat_map_app, <- final_write_block.
  unfold scan. rewrite <- loop_blocks. reflexivity.
Qed.

Lemma prints_blocks (ws : list (Path * Table)) :
  prints (flat_map (write_block outdir) ws) = map confirmation ws.
Proof. induction ws as [|pt ws IH]; simpl; [reflexivity|]. rewrite IH. reflexivity. Qed.


(** Something is written exactly when a row of the input has a field. *)
Lemma writes_nil_iff (rows : list Row) :
  writes (split_rows outdir base (header :: rows)) = [] <-> data_rows rows = [].
Proof.
  split.
  - intros Hw. rewrite <- (split_rows_written outdir base header rows).
    unfold written_rows. rewrite Hw. reflexivity.
  - intros Hd. rewrite split_rows_eq, (scan_nothing _ _ _ _ Hd). reflexivity.
Qed.

End Blocks.


(** X4.  A run on an input with a header prints one line per write, in the
    order of the writes and nothing else: the line names the path written
    and the number of rows below the header of the table written. *)
Theorem one_line_per_write (w : World) (outdir : Path) (base : string)
    (header : Row) (rows : list Row) :
  stdout (exec w (split_rows outdir base (header :: rows)))
  = stdout w
    ++ map confirmation (writes (split_rows outdir base (header :: rows))).
Proof.
  rewrite exec_stdout. f_equal.
  rewrite split_rows_blocks at 1. apply prints_blocks.
Qed.

(** ** The files of a run, in general *)

Lemma last_write_app (p : Path) (a b : list (Path * Table)) :
  last_write p (a ++ b)
  = match last_write p b with
    | Some t => Some t
    | None => last_write p a
    end.
Proof.
  induction a as [|[q t] a IH]; simpl.
  - destruct (last_write p b); reflexivity.
  - rewrite IH. destruct (last_write p b); reflexivity.
Qed.

Lemma last_write_none (p : Path) (ws : list (Path * Table)) :
  Forall (fun pt => fst pt <> p) ws -> last_write p ws = None.
Proof.
  induction 1 as [|[q t] ws Hq _ IH]; [reflexivity|]. simpl. rewrite IH.
  simpl in Hq. destruct (decide (q = p)); [contradiction|reflexivity].
Qed.

Lemma boundaries_app (a b : list Row) :
  boundaries (a ++ b) = boundaries a + boundaries b.
Proof. unfold boundaries. rewrite List.filter_app, length_app. reflexivity. Qed.

Section Groups.

Variables (outdir : Path) (base : string) (header : Row).

(** A boundary row is never added behind a row of the buffer: it flushes
    the buffer first. *)
Lemma loop_closed_groups (rows : list Row) (st : locals) :
  boundaries (tail (current_rows st)) = 0 ->
  Forall closed_group (writes (snd (for_rows outdir base header st rows)))
  /\ boundaries (tail (current_rows (fst (for_rows outdir base header st rows))))
     = 0.
Proof.
  revert st. induction rows as [|row rest IH]; intros st Hst.
  - split; [constructor|exact Hst].
  - rewrite loop_cons. simpl fst. simpl snd. rewrite writes_app.
    destruct (body_turn outdir base header st row) as [->|Hb Hne|Hb Hbuf|Hne Hb];
      simpl fst; simpl snd.
    + apply IH, Hst.
    + destruct (IH (mkLocals (pitch_idx st + 1) [row]) eq_refl) as [Hws Hend].
      split; [|exact Hend]. rewrite writes_flush_ops.
      constructor; [exact Hst|exact Hws].
    + apply (IH (mkLocals (pitch_idx st) [row])). reflexivity.
    + apply IH. simpl. destruct (current_rows st) as [|b bs]; [reflexivity|].
      simpl in *. rewrite boundaries_app, Hst, boundaries_cons, Hb.
      reflexivity.
Qed.

Lemma split_rows_closed_groups (rows : list Row) :
  Forall closed_group (writes (split_rows outdir base (header :: rows))).
Proof.
  rewrite split_rows_eq, writes_app, writes_final_write.
  destruct (loop_closed_groups rows (mkLocals 0 []) eq_refl) as [Hws Hend].
  apply Forall_app. split; [exact Hws|].
  fold (scan outdir base header rows) in Hend.
  destruct (truthy (current_rows (fst (scan outdir base header rows))));
    constructor; [exact Hend|constructor].
Qed.

End Groups.

(** X5.  The paths a run writes to, in order.  With [k] the counter once
    the first row that has a field is buffered (0 if it is a boundary row,
    1 if not) and [m] the number of boundary rows behind it, the flushes go
    to the pitch files [k+1], ..., [k+m] and the write at the end of the
    input to pitch file [k+m], or to pitch file 1 when [k+m] is 0; so there
    are [m+1] writes.  An input without a row that has a field gives no
    write. *)
Theorem paths_written (outdir : Path) (base : string) (header : Row)
    (rows : list Row) :
  map fst (writes (split_rows outdir base (header :: rows)))
  = match data_rows rows with
    | [] => []
    | r :: rest =>
        map (fun idx => fst (write_pitch outdir base idx header []))
          (seq ((if is_boundary r then 0 else 1) + 1) (boundaries rest)
           ++ [if 0 <? (if is_boundary r then 0 else 1) + boundaries rest
               then (if is_boundary r then 0 else 1) + boundaries rest
               else 1])
    end.
Proof.
  destruct (data_rows rows) as [|r rest] eqn:Hd.
  - apply (writes_nil_iff outdir base header) in Hd. rewrite Hd. reflexivity.
  - exact (split_rows_paths outdir base header rows r rest Hd).
Qed.

(** X6.  As soon as a boundary row follows the first row that has a field,
    the last two writes of the run go to one path: the group flushed last
    and the group written at the end of the input.  When the run is over
    the file at that path holds the table written at the end, so the table
    flushed last was replaced. *)
Theorem last_flush_replaced (w : World) (outdir : Path) (base : string)
    (header : Row) (rows : list Row) :
  0 < boundaries (tail (data_rows rows)) ->
  exists (ws : list (Path * Table)) (p : Path) (flushed final : Table),
    writes (split_rows outdir base (header :: rows))
    = ws ++ [(p, flushed); (p, final)]
    /\ files (exec w (split_rows outdir base (header :: rows))) !! p
       = Some final.
Proof.
  intros Hm. destruct (data_rows rows) as [|r rest] eqn:Hd;
    [exfalso; exact (Nat.lt_irrefl 0 Hm)|].
  simpl in Hm.
  destruct (final_write_reuses_path outdir base header rows r rest Hd Hm)
    as (earlier & p & Hpaths).
  apply map_eq_app in Hpaths. destruct Hpaths as (ws & l2 & Hws & _ & Hl2).
  destruct l2 as [|[p1 t1] [|[p2 t2] [|pt l2]]]; try discriminate.
  simpl in Hl2. injection Hl2 as -> ->.
  exists ws, p, t1, t2. split; [exact Hws|].
  rewrite exec_files_lookup, Hws, last_write_app. simpl.
  destruct (decide (p = p)); [reflexivity|contradiction].
Qed.

Lemma last_flush_replaced_witness :
  exists (ws : list (Path * Table)) (p : Path) (flushed final : Table),
    writes (split_rows split_dir "pitches" two_pitches)
    = ws ++ [(p, flushed); (p, final)]
    /\ files (exec empty_world (split_rows split_dir "pitches" two_pitches))
         !! p = Some final.
Proof.
  apply (last_flush_replaced empty_world split_dir "pitches" pitch_header
           (tail two_pitches)).
  vm_compute. lia.
Defined.

(** X7.  In every table written, no row below the second one is a boundary
    row: a boundary row always ends the group before it and is the first
    row of the next table. *)
Theorem boundary_rows_open_groups (outdir : Path) (base : string)
    (header : Row) (rows : list Row) :
  Forall (fun pt => Forall (fun row => is_boundary row = false)
                      (tail (tail (snd pt))))
    (writes (split_rows outdir base (header :: rows))).
Proof.
  eapply Forall_impl; [apply split_rows_closed_groups|].
  intros pt Hpt. apply boundaries_none. exact Hpt.
Qed.

(** X8.  Rows without fields change nothing: a run on an input is the run
    on the input without them, operation for operation. *)
Theorem blank_rows_ignored (outdir : Path) (base : string) (header : Row)
    (rows : list Row) :
  split_rows outdir base (header :: rows)
  = split_rows outdir base (header :: data_rows rows).
Proof.
  rewrite !split_rows_eq. unfold scan.
  rewrite (loop_data_rows outdir base header rows). reflexivity.
Qed.

(** X9.  On an input that has a header and below it only rows without
    fields, [split_file] returns and leaves the world as it was: it
    writes no file, creates no directory and prints nothing. *)
Theorem blank_input_no_effect (w : World) (input_path outdir : Path)
    (header : Row) (rows : list Row) :
  files w !! input_path = Some ((header :: rows) : Table) ->
  data_rows rows = [] ->
  split_file w input_path outdir = (Returned, w).
Proof.
  intros Hfile Hd. unfold split_file. rewrite Hfile, split_rows_eq.
  rewrite (scan_nothing _ _ _ _ Hd). reflexivity.
Qed.

Lemma blank_input_no_effect_witness :
  split_file (world_with [pitch_header; []; []]) ["Data"; "pitches.csv"]
    split_dir
  = (Returned, world_with [pitch_header; []; []]).
Proof.
  apply (blank_input_no_effect _ _ _ pitch_header [[]; []]).
  - vm_compute. reflexivity.
  - reflexivity.
Defined.

(** ** The files a run leaves alone *)

Lemma paths_of_map {A} (f : A -> Path) (l : list A)
    (ws : list (Path * Table)) :
  map fst ws = map f l -> Forall (fun pt => exists a, fst pt = f a) ws.
Proof.
  revert l. induction ws as [|pt ws IH]; intros [|a l] H; try discriminate;
    [constructor|].
  simpl in H. injection H as Hpt H. constructor; [exists a; exact Hpt|].
  exact (IH l H).
Qed.

(** Every write of a run goes to a pitch file of the output directory. *)
Lemma writes_to_pitch_files (outdir : Path) (base : string) (reader : Table) :
  Forall (fun pt => exists idx, fst pt = pitch_file outdir base idx)
    (writes (split_rows outdir base reader)).
Proof.
  destruct reader as [|header rows]; [constructor|].
  destruct (data_rows rows) as [|r rest] eqn:Hd.
  - apply (writes_nil_iff outdir base header) in Hd. rewrite Hd. constructor.
  - exact (paths_of_map _ _ _ (split_rows_paths outdir base header rows r rest Hd)).
Qed.

Lemma untouched_path (w : World) (outdir : Path) (base : string)
    (reader : Table) (p : Path) :
  (forall idx, p <> pitch_file outdir base idx) ->
  files (exec w (split_rows outdir base reader)) !! p = files w !! p.
Proof.
  intros Hp. rewrite exec_files_lookup, last_write_none; [reflexivity|].
  eapply Forall_impl; [apply writes_to_pitch_files|].
  intros pt [idx Hidx] Heq. apply (Hp idx). rewrite <- Heq. exact Hidx.
Qed.

Lemma rfind_dot_split (s : string) (i : nat) :
  PyPath.rfind_dot s = Some i ->
  exists s', s = String.substring 0 i s +:+ String "."%char s'.
Proof.
  revert i. induction s as [|c s IH]; intros i H; [discriminate|].
  simpl in H. destruct (PyPath.rfind_dot s) as [j|].
  - injection H as <-. destruct (IH j eq_refl) as [s' Hs'].
    exists s'. simpl.
    change (String c s
            = String c (String.substring 0 j s +:+ String "."%char s')).
    f_equal. exact Hs'.
  - destruct (Ascii.eqb c ".") eqn:Hc; [|discriminate].
    injection H as <-. apply Ascii.eqb_eq in Hc. subst c.
    exists s. reflexivity.
Qed.

(** The name of a path is its stem, followed by nothing or by a suffix that
    a dot opens. *)
Lemma stem_suffix (p : Path) :
  exists suffix,
    PyPath.name p = PyPath.stem p +:+ suffix
    /\ (suffix = "" \/ exists s', suffix = String "."%char s').
Proof.
  unfold PyPath.stem. set (nm := PyPath.name p).
  assert (Hnil : nm = nm +:+ "").
  { clear. induction nm as [|c s IH]; [reflexivity|].
    change (String c s = String c (s +:+ "")). f_equal. exact IH. }
  destruct (PyPath.rfind_dot nm) as [i|] eqn:Hi.
  - destruct ((0 <? i) && (i <? String.length nm - 1)).
    + destruct (rfind_dot_split nm i Hi) as [s' Hs'].
      exists (String "."%char s'). split; [exact Hs'|right; exists s'; reflexivity].
    + exists "". split; [exact Hnil|left; reflexivity].
  - exists "". split; [exact Hnil|left; reflexivity].
Qed.

Lemma name_last (p : Path) : p <> ["/"] -> PyPath.name p = List.last p "".
Proof.
  intros Hp. unfold PyPath.name.
  destruct p as [|s l]; [reflexivity|].
  destruct s as [|c s]; [reflexivity|].
  destruct c as [[|] [|] [|] [|] [|] [|] [|] [|]]; try reflexivity.
  destruct s as [|c' s]; [|reflexivity].
  destruct l as [|s2 l]; [contradiction|reflexivity].
Qed.

(** No pitch file of a run is the input of the run. *)
Lemma pitch_file_not_input (input_path outdir : Path) (idx : nat) :
  input_path <> pitch_file outdir (PyPath.stem input_path) idx.
Proof.
  intros H. rewrite pitch_file_eq in H.
  destruct (decide (input_path = ["/"])) as [Hroot|Hroot].
  - rewrite Hroot in H. destruct outdir as [|a [|b l]]; try discriminate.
  - pose proof (f_equal (fun l => List.last l "") H) as HL. simpl in HL.
    rewrite last_last, <- (name_last _ Hroot) in HL.
    destruct (stem_suffix input_path) as (suffix & Hname & Hsuffix).
    rewrite Hname in HL. apply String.app_inj in HL.
    destruct Hsuffix as [->|[s' ->]]; discriminate.
Qed.



(** X11.  [split_file] never writes over its input: after the call the
    input path holds the table that was read, whatever the output
    directory is, the directory of the input included. *)
Theorem input_file_kept (w : World) (input_path outdir : Path)
    (reader : Table) :
  files w !! input_path = Some reader ->
  files (snd (split_file w input_path outdir)) !! input_path = Some reader.
Proof.
  intros Hfile. unfold split_file. rewrite Hfile. simpl.
  rewrite untouched_path; [exact Hfile|].
  intros idx. apply pitch_file_not_input.
Qed.

Lemma input_file_kept_witness :
  files (snd (split_file (world_with two_pitches) ["Data"; "pitches.csv"]
                ["Data"]))
    !! ["Data"; "pitches.csv"] = Some two_pitches.
Proof.
  apply (input_file_kept (world_with two_pitches) ["Data"; "pitches.csv"]
           ["Data"] two_pitches).
  vm_compute. reflexivity.
Defined.




(** ** Whitespace around field 0, and the header *)

Lemma chars_append (a b : string) :
  PyStr.chars (a +:+ b) = PyStr.chars a ++ PyStr.chars b.
Proof.
  induction a as [|c a IH]; [reflexivity|].
  change (c :: PyStr.chars (a +:+ b) = c :: (PyStr.chars a ++ PyStr.chars b)).
  f_equal. exact IH.
Qed.

Lemma lstrip_blank (ws l : list ascii) :
  forallb PyStr.isspace ws = true -> PyStr.lstrip (ws ++ l) = PyStr.lstrip l.
Proof.
  induction ws as [|c ws IH]; intros H; [reflexivity|].
  simpl in H. apply andb_true_iff in H. destruct H as [Hc Hws].
  simpl. rewrite Hc. apply IH, Hws.
Qed.

Lemma lstrip_app_blank (l ws : list ascii) :
  forallb PyStr.isspace ws = true ->
  PyStr.lstrip (l ++ ws)
  = match PyStr.lstrip l with
    | [] => []
    | _ :: _ => PyStr.lstrip l ++ ws
    end.
Proof.
  intros Hws. induction l as [|c l IH].
  - simpl. rewrite <- (app_nil_r ws), lstrip_blank by exact Hws. reflexivity.
  - simpl. destruct (PyStr.isspace c); [exact IH|reflexivity].
Qed.

Lemma forallb_rev {A} (f : A -> bool) (l : list A) :
  forallb f l = true -> forallb f (rev l) = true.
Proof.
  rewrite !forallb_forall. intros H x Hx. apply H, in_rev, Hx.
Qed.

Lemma rstrip_app_blank (l ws : list ascii) :
  forallb PyStr.isspace ws = true -> PyStr.rstrip (l ++ ws) = PyStr.rstrip l.
Proof.
  intros Hws. unfold PyStr.rstrip.
  rewrite rev_app_distr, lstrip_blank by (apply forallb_rev, Hws).
  reflexivity.
Qed.

Lemma strip_padded (pad1 s pad2 : string) :
  blank pad1 = true -> blank pad2 = true ->
  PyStr.strip (pad1 +:+ s +:+ pad2) = PyStr.strip s.
Proof.
  unfold blank, PyStr.strip. intros H1 H2. f_equal.
  rewrite !chars_append, lstrip_blank by exact H1.
  rewrite lstrip_app_blank by exact H2.
  destruct (PyStr.lstrip (PyStr.chars s)) as [|c l]; [reflexivity|].
  apply rstrip_app_blank, H2.
Qed.

(** X14.  Whitespace before and after field 0 does not count: a row is a
    boundary row exactly when the row with its field 0 stripped of that
    whitespace is one, and the value read is the same. *)
Theorem padding_ignored (pad1 row0 pad2 : string) (fields : list string) :
  blank pad1 = true -> blank pad2 = true ->
  time_of (pad1 +:+ row0 +:+ pad2) = time_of row0
  /\ is_boundary ((pad1 +:+ row0 +:+ pad2) :: fields)
     = is_boundary (row0 :: fields).
Proof.
  intros H1 H2.
  assert (Ht : time_of (pad1 +:+ row0 +:+ pad2) = time_of row0)
    by (unfold time_of; rewrite strip_padded by assumption; reflexivity).
  split; [exact Ht|]. simpl. rewrite Ht. reflexivity.
Qed.

Lemma padding_ignored_witness :
  time_of ("  " +:+ "0.0" +:+ " ") = time_of "0.0"
  /\ is_boundary (("  " +:+ "0.0" +:+ " ") :: ["1.5"])
     = is_boundary ("0.0" :: ["1.5"]).
Proof.
  apply (padding_ignored "  " "0.0" " " ["1.5"]); reflexivity.
Defined.

Section Header.

Variables (outdir : Path) (base : string) (header1 header2 : Row).

Lemma body_with_header (st : locals) (row : Row) :
  fst (loop_body outdir base header2 st row)
  = fst (loop_body outdir base header1 st row)
  /\ writes (snd (loop_body outdir base header2 st row))
     = map (with_header header2)
         (writes (snd (loop_body outdir base header1 st row))).
Proof.
  unfold loop_body. destruct row as [|row0 fields]; [split; reflexivity|].
  destruct (eq_zero (time_of row0)); [|split; reflexivity].
  destruct (current_rows st); split; reflexivity.
Qed.

Lemma loop_with_header (rows : list Row) (st : locals) :
  fst (for_rows outdir base header2 st rows)
  = fst (for_rows outdir base header1 st rows)
  /\ writes (snd (for_rows outdir base header2 st rows))
     = map (with_header header2)
         (writes (snd (for_rows outdir base header1 st rows))).
Proof.
  revert st. induction rows as [|row rest IH]; intros st; [split; reflexivity|].
  rewrite !loop_cons. simpl fst. simpl snd.
  destruct (body_with_header st row) as [Hst Hws]. rewrite Hst.
  destruct (IH (fst (loop_body outdir base header1 st row))) as [Hst' Hws'].
  split; [exact Hst'|].
  rewrite !writes_app, map_app, Hws, Hws'. reflexivity.
Qed.

End Header.

(** X15.  The header is copied and never read: with another header, a run
    writes to the same paths, in the same order, the same rows below the
    new header.  A header whose field 0 reads as [0.0] opens no pitch. *)
Theorem header_only_copied (outdir : Path) (base : string)
    (header1 header2 : Row) (rows : list Row) :
  writes (split_rows outdir base (header2 :: rows))
  = map (with_header header2)
      (writes (split_rows outdir base (header1 :: rows))).
Proof.
  rewrite !split_rows_eq, !writes_app, map_app, !writes_final_write.
  unfold scan.
  destruct (loop_with_header outdir base header1 header2 rows (mkLocals 0 []))
    as [Hst Hws].
  rewrite Hst, Hws. f_equal.
  destruct (truthy (current_rows
              (fst (for_rows outdir base header1 (mkLocals 0 []) rows))));
    reflexivity.
Qed.

(** X16.  The flushes of a run never collide: all the writes but the last
    one go to pairwise different paths.  Only the write at the end of the
    input can go to a path that was written before. *)
Theorem flushes_to_distinct_files (outdir : Path) (base : string)
    (header : Row) (rows : list Row) :
  NoDup (map fst (removelast (writes (split_rows outdir base (header :: rows))))).
Proof.
  destruct (data_rows rows) as [|r rest] eqn:Hd.
  - apply (writes_nil_iff outdir base header) in Hd. rewrite Hd. constructor.
  - pose proof (split_rows_paths outdir base header rows r rest Hd) as Hp.
    cbv zeta in Hp. rewrite map_app in Hp. apply map_eq_app in Hp.
    destruct Hp as (ws & l2 & Hws & Hflushes & Hl2).
    destruct l2 as [|pt [|pt' l2]]; try discriminate.
    rewrite Hws, removelast_last, Hflushes.
    apply NoDup_fmap_2; [|apply NoDup_seq].
    intros i j. apply pitch_file_inj.
Qed.
